(** * The bounded-depth same-site crawler of [utils.py]

    A shallow embedding of [SimpleWebsiteScraper] and [CustomCrawler]
    together with the part of Python's [urllib.parse] they call.

    Conventions.
    - A Python [str] is a Rocq [string]; a character is a code point below
      256.  On such strings [_checknetloc] never raises: NFKC normalisation
      of a code point below 256 introduces none of [/ ? # @ :].
    - A Python [int] is a [Z].
    - An exception is a value of [exn]; a computation that may raise returns
      a [result].  The loop of [scrape] runs in a state-and-exception monad
      whose state survives a raised exception, as Python's heap does.
    - [visited] is a [gset string], the deque a list used first-in
      first-out, and the result dictionary an association list kept in
      insertion order.
    - Calls to [logger] are left out of the model. *)

From Stdlib Require Import ZArith Ascii String List Bool Lia DecimalString.
From stdpp Require Import gmap strings list.

Local Open Scope Z_scope.

(** ** Exceptions and results *)

Inductive exn : Type :=
| ValueError (msg : string)
| KeyError (key : string)
| RuntimeError (msg : string)
| IOError (msg : string)
| OtherError (msg : string).


Definition is_ValueError (e : exn) : bool :=
  match e with ValueError _ => true | _ => false end.


Inductive result (A : Type) : Type :=
| Ok (a : A)
| Raise (e : exn).
Arguments Ok {A} a.
Arguments Raise {A} e.

Definition rbind {A B} (k : A -> result B) (r : result A) : result B :=
  match r with Ok a => k a | Raise e => Raise e end.

#[global] Instance result_ret : MRet result := fun A a => Ok a.
#[global] Instance result_bind : MBind result := fun A B k r => rbind k r.

(** ** Python string methods *)

Module Str.

Definition ch_eqb (a b : ascii) : bool := Ascii.eqb a b.
Arguments ch_eqb : simpl never.

(** [len(s)] *)
Definition len (s : string) : nat := String.length s.

(** [c in s] *)
Fixpoint contains (c : ascii) (s : string) : bool :=
  match s with
  | EmptyString => false
  | String a s' => ch_eqb a c || contains c s'
  end.

(** [s.find(c, start)]; [None] stands for [-1] *)
Fixpoint find_from (c : ascii) (start : nat) (s : string) : option nat :=
  match s with
  | EmptyString => None
  | String a s' =>
      match start with
      | O => if ch_eqb a c then Some O else option_map S (find_from c O s')
      | S k => option_map S (find_from c k s')
      end
  end.

(** [s.find(c)] *)
Definition find (c : ascii) (s : string) : option nat := find_from c O s.

(** [s.rfind(c)] *)
Fixpoint rfind (c : ascii) (s : string) : option nat :=
  match s with
  | EmptyString => None
  | String a s' =>
      match rfind c s' with
      | Some i => Some (S i)
      | None => if ch_eqb a c then Some O else None
      end
  end.

(** [s[:n]] *)
Fixpoint take (n : nat) (s : string) : string :=
  match n, s with
  | S k, String a s' => String a (take k s')
  | _, _ => EmptyString
  end.

(** [s[n:]] *)
Fixpoint drop (n : nat) (s : string) : string :=
  match n, s with
  | S k, String _ s' => drop k s'
  | _, _ => s
  end.

(** [s.startswith(pre)] *)
Fixpoint startswith (pre s : string) : bool :=
  match pre, s with
  | EmptyString, _ => true
  | String a pre', String b s' => ch_eqb a b && startswith pre' s'
  | String _ _, EmptyString => false
  end.

(** [s.endswith(c)] for a one-character suffix *)
Fixpoint endswith (c : ascii) (s : string) : bool :=
  match s with
  | EmptyString => false
  | String a EmptyString => ch_eqb a c
  | String _ s' => endswith c s'
  end.

(** [s.lstrip(chars)], the characters given as a predicate *)
Fixpoint lstrip (p : ascii -> bool) (s : string) : string :=
  match s with
  | EmptyString => EmptyString
  | String a s' => if p a then lstrip p s' else s
  end.

(** [s.rstrip(chars)] *)
Fixpoint rstrip (p : ascii -> bool) (s : string) : string :=
  match s with
  | EmptyString => EmptyString
  | String a s' =>
      match rstrip p s' with
      | EmptyString => if p a then EmptyString else String a EmptyString
      | r => String a r
      end
  end.

(** [s.strip(chars)] *)
Definition strip (p : ascii -> bool) (s : string) : string :=
  rstrip p (lstrip p s).

(** [s.replace(c, "")] *)
Fixpoint remove (c : ascii) (s : string) : string :=
  match s with
  | EmptyString => EmptyString
  | String a s' => if ch_eqb a c then remove c s' else String a (remove c s')
  end.

Definition is_upper (a : ascii) : bool :=
  (65 <=? nat_of_ascii a)%nat && (nat_of_ascii a <=? 90)%nat.
Definition is_lower (a : ascii) : bool :=
  (97 <=? nat_of_ascii a)%nat && (nat_of_ascii a <=? 122)%nat.
Definition is_digit (a : ascii) : bool :=
  (48 <=? nat_of_ascii a)%nat && (nat_of_ascii a <=? 57)%nat.
(** [c.isascii() and c.isalpha()] *)
Definition is_ascii_alpha (a : ascii) : bool := is_upper a || is_lower a.
Definition is_hex_digit (a : ascii) : bool :=
  is_digit a
  || ((65 <=? nat_of_ascii a)%nat && (nat_of_ascii a <=? 70)%nat)
  || ((97 <=? nat_of_ascii a)%nat && (nat_of_ascii a <=? 102)%nat).

Definition lower_char (a : ascii) : ascii :=
  if is_upper a then ascii_of_nat (nat_of_ascii a + 32) else a.

(** [s.lower()]; only ever applied to strings of scheme characters *)
Fixpoint lower (s : string) : string :=
  match s with
  | EmptyString => EmptyString
  | String a s' => String (lower_char a) (lower s')
  end.

(** [all(p(c) for c in s)] *)
Fixpoint all (p : ascii -> bool) (s : string) : bool :=
  match s with
  | EmptyString => true
  | String a s' => p a && all p s'
  end.

(** [s.partition(c)]: the part before the first [c], whether [c] was
    found, and the part after it *)
Fixpoint partition (c : ascii) (s : string) : string * bool * string :=
  match s with
  | EmptyString => (EmptyString, false, EmptyString)
  | String a s' =>
      if ch_eqb a c then (EmptyString, true, s')
      else let '(h, f, t) := partition c s' in (String a h, f, t)
  end.

(** [s.rpartition(c)]: split at the last [c]; when there is none the
    whole string is the third component *)
Fixpoint rpartition (c : ascii) (s : string) : string * bool * string :=
  match s with
  | EmptyString => (EmptyString, false, EmptyString)
  | String a s' =>
      let '(h, f, t) := rpartition c s' in
      if f then (String a h, true, t)
      else if ch_eqb a c then (EmptyString, true, s')
      else (EmptyString, false, String a t)
  end.

(** [s.split(c)] *)
Fixpoint split (c : ascii) (s : string) : list string :=
  match s with
  | EmptyString => [EmptyString]
  | String a s' =>
      if ch_eqb a c then EmptyString :: split c s'
      else match split c s' with
           | [] => [String a EmptyString]
           | h :: t => String a h :: t
           end
  end.

(** [sep.join(l)] *)
Fixpoint join (sep : string) (l : list string) : string :=
  match l with
  | [] => EmptyString
  | [x] => x
  | x :: l' => x +:+ sep +:+ join sep l'
  end.

(** [bool(s)]: a string is true when it is not empty *)
Definition nonempty (s : string) : bool :=
  match s with EmptyString => false | _ => true end.

(** [s in l] for a list of strings *)
Definition in_list (s : string) (l : list string) : bool :=
  existsb (String.eqb s) l.

End Str.

(** ** The functions of [urllib.parse] and [ipaddress] the scraper calls

    Transcribed from CPython 3.11 ([Lib/urllib/parse.py],
    [Lib/ipaddress.py]).  Of [ipaddress] only success or failure of the
    constructors is modelled, not the address computed. *)

Module Urllib.
Import Str.

Definition uses_relative : list string :=
  [""; "ftp"; "http"; "gopher"; "nntp"; "imap"; "wais"; "file"; "https";
   "shttp"; "mms"; "prospero"; "rtsp"; "rtspu"; "sftp"; "svn"; "svn+ssh";
   "ws"; "wss"].

Definition uses_netloc : list string :=
  [""; "ftp"; "http"; "gopher"; "nntp"; "telnet"; "imap"; "wais"; "file";
   "mms"; "https"; "shttp"; "snews"; "prospero"; "rtsp"; "rtspu"; "rsync";
   "svn"; "svn+ssh"; "sftp"; "nfs"; "git"; "git+ssh"; "ws"; "wss"].

Definition uses_params : list string :=
  [""; "ftp"; "hdl"; "prospero"; "http"; "imap"; "https"; "shttp"; "rtsp";
   "rtspu"; "sip"; "sips"; "mms"; "sftp"; "tel"].

(** [c in scheme_chars] *)
Definition scheme_char (a : ascii) : bool :=
  is_lower a || is_upper a || is_digit a
  || ch_eqb a "+" || ch_eqb a "-" || ch_eqb a ".".

(** [c in _WHATWG_C0_CONTROL_OR_SPACE] *)
Definition c0_control_or_space (a : ascii) : bool :=
  (nat_of_ascii a <=? 32)%nat.

(** The loop over [_UNSAFE_URL_BYTES_TO_REMOVE] *)
Definition remove_unsafe (s : string) : string :=
  remove "010" (remove "013" (remove "009" s)).

Record SplitResult : Type := mkSplit {
  s_scheme : string;
  s_netloc : string;
  s_path : string;
  s_query : string;
  s_fragment : string }.

Record ParseResult : Type := mkParse {
  scheme : string;
  netloc : string;
  path : string;
  params : string;
  query : string;
  fragment : string }.

(** *** [ipaddress] *)

(** [int(s, 10)] on a string of decimal digits *)
Definition decimal_value (s : string) : N :=
  fold_left (fun acc a => (10 * acc + (N_of_ascii a - 48))%N)
            (list_ascii_of_string s) 0%N.

(** [_BaseV4._parse_octet] does not raise *)
Definition parse_octet_ok (octet_str : string) : bool :=
  nonempty octet_str
  && all is_digit octet_str
  && (len octet_str <=? 3)%nat
  && negb (negb (String.eqb octet_str "0") && startswith "0" octet_str)
  && (decimal_value octet_str <=? 255)%N.

(** [IPv4Address(address)] does not raise *)
Definition IPv4Address_ok (address : string) : bool :=
  negb (contains "/" address)
  && nonempty address
  && (let octets := split "." address in
      (length octets =? 4)%nat && forallb parse_octet_ok octets).

(** [_BaseV6._parse_hextet] does not raise ([int("", 16)] does) *)
Definition parse_hextet_ok (hextet_str : string) : bool :=
  all is_hex_digit hextet_str
  && (len hextet_str <=? 4)%nat
  && nonempty hextet_str.

(** The indices [i] in [range(1, len(parts) - 1)] with [parts[i]] empty *)
Definition inner_empty_indices (parts : list string) : list nat :=
  filter (fun i => negb (nonempty (nth i parts "x")))
         (seq 1 (length parts - 2)).

(** [_BaseV6._ip_int_from_string] does not raise *)
Definition ip6_int_from_string_ok (ip_str : string) : bool :=
  nonempty ip_str
  && (let parts := split ":" ip_str in
      (3 <=? length parts)%nat
      && (let parts' :=
            if contains "." (List.last parts "")
            then if IPv4Address_ok (List.last parts "")
                 then Some (removelast parts ++ ["0"; "0"])
                 else None
            else Some parts in
          match parts' with
          | None => false
          | Some parts =>
              let n := length parts in
              (n <=? 9)%nat
              && match inner_empty_indices parts with
                 | _ :: _ :: _ => false
                 | [skip_index] =>
                     let first_empty := negb (nonempty (nth 0 parts "x")) in
                     let last_empty := negb (nonempty (List.last parts "x")) in
                     let parts_hi :=
                       if first_empty then (skip_index - 1)%nat else skip_index in
                     let parts_lo :=
                       if last_empty then (n - skip_index - 1 - 1)%nat
                       else (n - skip_index - 1)%nat in
                     negb (first_empty && negb (parts_hi =? 0)%nat)
                     && negb (last_empty && negb (parts_lo =? 0)%nat)
                     && (parts_hi + parts_lo <=? 7)%nat
                     && forallb parse_hextet_ok (firstn parts_hi parts)
                     && forallb parse_hextet_ok (skipn (n - parts_lo) parts)
                 | [] =>
                     (n =? 8)%nat
                     && nonempty (nth 0 parts "")
                     && nonempty (List.last parts "")
                     && forallb parse_hextet_ok parts
                 end
          end)).

(** [IPv6Address(address)] does not raise *)
Definition IPv6Address_ok (address : string) : bool :=
  negb (contains "/" address)
  && (let '(addr, sep, scope_id) := partition "%" address in
      (negb sep || (nonempty scope_id && negb (contains "%" scope_id)))
      && ip6_int_from_string_ok addr).

(** [re.match(r"\Av[a-fA-F0-9]+\..+\Z", hostname)] *)
Definition ipvfuture_match (hostname : string) : bool :=
  match hostname with
  | String "v" rest =>
      let rest' := lstrip is_hex_digit rest in
      negb (String.eqb rest' rest)
      && match rest' with
         | String "." tl => nonempty tl && negb (contains "010" tl)
         | _ => false
         end
  | _ => false
  end.

Definition _check_bracketed_host (hostname : string) : result unit :=
  if startswith "v" hostname then
    if ipvfuture_match hostname then Ok tt
    else Raise (ValueError "IPvFuture address is invalid")
  else if IPv4Address_ok hostname then
    Raise (ValueError "An IPv4 address cannot be in brackets")
  else if IPv6Address_ok hostname then Ok tt
  else Raise (ValueError "does not appear to be an IPv4 or IPv6 address").

Definition _check_bracketed_netloc (netloc : string) : result unit :=
  let hostname_and_port := snd (rpartition "@" netloc) in
  let '(before_bracket, have_open_br, bracketed) :=
    partition "[" hostname_and_port in
  if have_open_br then
    if nonempty before_bracket then Raise (ValueError "Invalid IPv6 URL")
    else
      let '(hostname, _, port) := partition "]" bracketed in
      if nonempty port && negb (startswith ":" port)
      then Raise (ValueError "Invalid IPv6 URL")
      else _check_bracketed_host hostname
  else
    let '(hostname, _, port) := partition ":" hostname_and_port in
    _check_bracketed_host hostname.

(** *** [urlsplit], [urlparse] *)

Definition _splitnetloc (url : string) (start : nat) : string * string :=
  let delim :=
    fold_left (fun delim c =>
                 match find_from c start url with
                 | Some wdelim => Nat.min delim wdelim
                 | None => delim
                 end)
              ["/"; "?"; "#"]%char (len url) in
  (drop start (take delim url), drop delim url).

(** [url.split(c, 1)] when [c in url] *)
Definition split_once (c : ascii) (url : string) : string * string :=
  let '(h, _, t) := partition c url in (h, t).

Definition urlsplit (url scheme : string) : result SplitResult :=
  let url := lstrip c0_control_or_space url in
  let scheme := strip c0_control_or_space scheme in
  let url := remove_unsafe url in
  let scheme := remove_unsafe scheme in
  let '(scheme, url) :=
    match find ":" url, url with
    | Some (S i), String c0 _ =>
        if is_ascii_alpha c0 && all scheme_char (take (S i) url)
        then (lower (take (S i) url), drop (S (S i)) url)
        else (scheme, url)
    | _, _ => (scheme, url)
    end in
  '(netloc, url) ←
    (if startswith "//" url then
       let '(netloc, url) := _splitnetloc url 2 in
       if (contains "[" netloc && negb (contains "]" netloc))
          || (contains "]" netloc && negb (contains "[" netloc))
       then Raise (ValueError "Invalid IPv6 URL")
       else if contains "[" netloc && contains "]" netloc
            then _ ← _check_bracketed_netloc netloc; Ok (netloc, url)
            else Ok (netloc, url)
     else Ok (EmptyString, url));
  let '(url, fragment) :=
    if contains "#" url then split_once "#" url else (url, EmptyString) in
  let '(url, query) :=
    if contains "?" url then split_once "?" url else (url, EmptyString) in
  Ok (mkSplit scheme netloc url query fragment).

Definition _splitparams (url : string) : string * string :=
  if contains "/" url then
    match find_from ";" (default O (rfind "/" url)) url with
    | None => (url, EmptyString)
    | Some i => (take i url, drop (S i) url)
    end
  else
    match find ";" url with
    | Some i => (take i url, drop (S i) url)
    | None => (take (len url - 1) url, url)
    end.

Definition urlparse_scheme (url scheme : string) : result ParseResult :=
  sr ← urlsplit url scheme;
  let '(url, params) :=
    if in_list (s_scheme sr) uses_params && contains ";" (s_path sr)
    then _splitparams (s_path sr)
    else (s_path sr, EmptyString) in
  Ok (mkParse (s_scheme sr) (s_netloc sr) url params
              (s_query sr) (s_fragment sr)).

(** [urlparse(url)], the scheme argument left at its default *)
Definition urlparse (url : string) : result ParseResult :=
  urlparse_scheme url "".

(** *** [urlunsplit], [urlunparse] *)

Definition urlunsplit (scheme netloc url query fragment : string) : string :=
  let url :=
    if nonempty netloc
       || (nonempty scheme && in_list scheme uses_netloc
           && negb (startswith "//" url))
    then
      let url :=
        if nonempty url && negb (startswith "/" url) then "/" +:+ url
        else url in
      "//" +:+ netloc +:+ url
    else url in
  let url := if nonempty scheme then scheme +:+ ":" +:+ url else url in
  let url := if nonempty query then url +:+ "?" +:+ query else url in
  let url := if nonempty fragment then url +:+ "#" +:+ fragment else url in
  url.

Definition urlunparse (p : ParseResult) : string :=
  let url :=
    if nonempty (params p) then path p +:+ ";" +:+ params p else path p in
  urlunsplit (scheme p) (netloc p) url (query p) (fragment p).

(** *** [urljoin] *)

(** The loop over [segments] that builds [resolved_path] *)
Definition resolve_segments (segments : list string) : list string :=
  fold_left (fun resolved_path seg =>
               if String.eqb seg ".." then removelast resolved_path
               else if String.eqb seg "." then resolved_path
               else resolved_path ++ [seg])
            segments [].

(** [segments[1:-1] = filter(None, segments[1:-1])] *)
Definition filter_inner (segments : list string) : list string :=
  match segments with
  | [] => []
  | [x] => [x]
  | x :: rest =>
      x :: filter nonempty (removelast rest) ++ [List.last rest ""]
  end.

Definition urljoin (base url : string) : result string :=
  if negb (nonempty base) then Ok url
  else if negb (nonempty url) then Ok base
  else
    b ← urlparse_scheme base "";
    u ← urlparse_scheme url (scheme b);
    if negb (String.eqb (scheme u) (scheme b))
       || negb (in_list (scheme u) uses_relative)
    then Ok url
    else if in_list (scheme u) uses_netloc && nonempty (netloc u)
    then Ok (urlunparse u)
    else
      let netloc' :=
        if in_list (scheme u) uses_netloc then netloc b else netloc u in
      if negb (nonempty (path u)) && negb (nonempty (params u)) then
        let query' := if nonempty (query u) then query u else query b in
        Ok (urlunparse (mkParse (scheme u) netloc' (path b) (params b)
                                query' (fragment u)))
      else
        let base_parts := split "/" (path b) in
        let base_parts :=
          if nonempty (List.last base_parts "") then removelast base_parts
          else base_parts in
        let segments :=
          if startswith "/" (path u) then split "/" (path u)
          else filter_inner (base_parts ++ split "/" (path u)) in
        let resolved_path := resolve_segments segments in
        let resolved_path :=
          if in_list (List.last segments "") ["."; ".."]
          then resolved_path ++ [EmptyString]
          else resolved_path in
        let joined := join "/" resolved_path in
        Ok (urlunparse (mkParse (scheme u) netloc'
                                (if nonempty joined then joined else "/")
                                (params u) (query u) (fragment u))).

(** *** The [hostname] attribute of a parse result *)

(** [_hostinfo[0]] *)
Definition _hostinfo_hostname (netloc : string) : string :=
  let hostinfo := snd (rpartition "@" netloc) in
  let '(_, have_open_br, bracketed) := partition "[" hostinfo in
  if have_open_br then (partition "]" bracketed).1.1
  else (partition ":" hostinfo).1.1.

(** [parsed.hostname]; [None] when the network location names no host *)
Definition hostname (p : ParseResult) : option string :=
  let h := _hostinfo_hostname (netloc p) in
  if nonempty h then
    let '(host, percent, zone) := partition "%" h in
    Some (lower host +:+ (if percent then "%" else "") +:+ zone)
  else None.

End Urllib.

(** ** [crawl4ai]'s result object

    [CrawlResult] is declared by the crawling library; the scraper reads
    [success], [error], [markdown] and [links], a dictionary from
    ["internal"] and ["external"] to lists of link dictionaries. *)

Record CrawlResult : Type := mkCrawlResult {
  success : bool;
  error : string;
  markdown : string;
  links : gmap string (list (gmap string string)) }.

(** ** Insertion-ordered dictionaries ([Dict[str, CrawlResult]]) *)

Module Dict.

(** [d[k] = v]: an existing key keeps its place *)
Fixpoint set {V : Type} (k : string) (v : V) (d : list (string * V))
  : list (string * V) :=
  match d with
  | [] => [(k, v)]
  | (k', v') :: d' =>
      if String.eqb k' k then (k', v) :: d' else (k', v') :: set k v d'
  end.

(** [d.get(k)] *)
Fixpoint get {V : Type} (k : string) (d : list (string * V)) : option V :=
  match d with
  | [] => None
  | (k', v') :: d' => if String.eqb k' k then Some v' else get k d'
  end.

(** [list(d.keys())] *)
Definition keys {V : Type} (d : list (string * V)) : list string :=
  map fst d.

End Dict.

(** ** [SimpleWebsiteScraper]: the URL canonicaliser *)

Import Str Urllib.

(** [urlparse(self.base_url)].  When [self.base_url] is still [None],
    [urlparse] answers with a [ParseResultBytes] of empty byte strings;
    the callers below say what they do with it. *)

(** [is_valid_internal_link], the body of its [try] *)
Definition is_valid_internal_link_body (base_url : option string)
    (link : string) : result bool :=
  if negb (nonempty link) || startswith "#" link then Ok false
  else
    match base_url with
    | None =>
        (* [b'' == parsed_link.netloc] is [False] for every [str] *)
        _ ← urlparse link; Ok false
    | Some base =>
        parsed_base ← urlparse base;
        parsed_link ← urlparse link;
        Ok (String.eqb (netloc parsed_base) (netloc parsed_link)
            && negb (in_list (path parsed_link) [""; "/"])
            && startswith (path parsed_base) (path parsed_link))
    end.

(** [is_valid_internal_link]: [except Exception: return False] *)
Definition is_valid_internal_link (base_url : option string) (link : string)
  : result bool :=
  match is_valid_internal_link_body base_url link with
  | Ok b => Ok b
  | Raise _ => Ok false
  end.

(** The two [_replace] calls of [normalize_url] *)
Definition normalize_parsed (parsed : ParseResult) : ParseResult :=
  let parsed :=
    mkParse (scheme parsed) (netloc parsed) (path parsed) (params parsed)
            (query parsed) "" in
  if endswith "/" (path parsed) && (1 <? len (path parsed))%nat
  then mkParse (scheme parsed) (netloc parsed)
               (rstrip (ch_eqb "/") (path parsed))
               (params parsed) (query parsed) (fragment parsed)
  else parsed.

Definition normalize_url (url : string) : result string :=
  match (parsed ← urlparse url; Ok (urlunparse (normalize_parsed parsed))) with
  | Ok s => Ok s
  | Raise _ => Raise (ValueError ("Invalid URL format: " +:+ url))
  end.

Definition join_url (base_url : option string) (base url : string)
  : result string :=
  match
    (joined ← urljoin base url;
     match base_url with
     | None =>
         (* [str.startswith] of a [bytes] prefix is a [TypeError] *)
         _ ← urlparse joined; Raise (OtherError "TypeError")
     | Some root =>
         parsed_base ← urlparse root;
         parsed_joined ← urlparse joined;
         let parsed_joined :=
           if negb (startswith (path parsed_base) (path parsed_joined)) then
             let new_path :=
               rstrip (ch_eqb "/") (path parsed_base) +:+ "/"
               +:+ lstrip (ch_eqb "/") (path parsed_joined) in
             mkParse (scheme parsed_joined) (netloc parsed_joined) new_path
                     (params parsed_joined) (query parsed_joined)
                     (fragment parsed_joined)
           else parsed_joined in
         Ok (urlunparse parsed_joined)
     end)
  with
  | Ok s => Ok s
  | Raise _ =>
      Raise (ValueError ("Invalid URL format: base=" +:+ base
                         +:+ ", url=" +:+ url))
  end.

(** ** The canonicaliser in the words of the specification

    Two definitions written from the specification, not from the code, to
    compare the code with. *)

(** "strips exactly one trailing slash from a non-root path (path of
    length > 1 char)" *)
Definition strip_one_slash (path : string) : string :=
  if endswith "/" path && (1 <? len path)%nat
  then take (len path - 1) path
  else path.

(** "strips any fragment component; strips exactly one trailing slash from
    a non-root path" *)
Definition normalize_spec (url : string) : result string :=
  parsed ← urlparse url;
  Ok (urlunparse (mkParse (scheme parsed) (netloc parsed)
                          (strip_one_slash (path parsed)) (params parsed)
                          (query parsed) "")).

(** "returns false for empty strings, fragment-only links, and any link
    whose host differs from rootUrl's host, or whose path is empty or
    exactly /, or whose path does not start with rootUrl's path prefix.
    Returns true otherwise.  Must not raise -- a malformed link is simply
    invalid" *)
Definition is_valid_internal_link_spec (root link : string) : bool :=
  if negb (nonempty link) || startswith "#" link then false
  else
    match urlparse root, urlparse link with
    | Ok parsed_root, Ok parsed_link =>
        if negb (bool_decide (hostname parsed_root = hostname parsed_link))
        then false
        else if in_list (path parsed_link) [""; "/"] then false
        else if negb (startswith (path parsed_root) (path parsed_link))
        then false
        else true
    | _, _ => false
    end.

(** A run of [k] slashes *)
Fixpoint slashes (k : nat) : string :=
  match k with
  | O => EmptyString
  | S k' => String "/" (slashes k')
  end.

(** ** [SimpleWebsiteScraper.scrape]: the traversal engine *)

(** What the traversal does, in the order it does it.  The trace is ghost
    state: the code keeps no such list. *)
Inductive event : Type :=
| Marked (url : string)
    (** [visited.add(current_url)] *)
| Fetched (url : string) (depth : Z) (outcome : result CrawlResult)
    (** [await self.crawler.arun(current_url)] returned or raised *)
| Enqueued (url : string) (depth : Z)
    (** [queue.append((normalized_url, current_depth + 1))] *)
| CrawlerEntered
    (** [async with AsyncWebCrawler() as crawler] *)
| StrategyCreated
    (** [LLMExtractionStrategy(...)] in [SimpleWebsiteScraper.__init__] *)
| FileWritten (name content : string)
    (** the [with output_file.open("w")] block *)
| CrawlerExited.

Section Scraper.

(** The world outside the program and the collaborators that act on it. *)
Context {W : Type}.
Variable arun : string -> W -> result CrawlResult * W.

Record state : Type := mkState {
  base_url : option string;
  results : list (string * CrawlResult);
  queue : list (string * Z);
  visited : gset string;
  trace : list event;
  world : W }.

(** State and exceptions: the state is kept when an exception is raised. *)
Definition M (A : Type) : Type := state -> result A * state.

#[local] Instance M_ret : MRet M := fun A a st => (Ok a, st).
#[local] Instance M_bind : MBind M := fun A B k m st =>
  match m st with
  | (Ok a, st') => k a st'
  | (Raise e, st') => (Raise e, st')
  end.

Definition lift {A} (r : result A) : M A := fun st => (r, st).
Definition gets {A} (f : state -> A) : M A := fun st => (Ok (f st), st).
Definition modify (f : state -> state) : M unit := fun st => (Ok tt, f st).

(** [try: body  except <catches> as e: handler(e)] *)
Definition try_except {A} (body : M A) (catches : exn -> bool)
    (handler : exn -> M A) : M A := fun st =>
  match body st with
  | (Raise e, st') => if catches e then handler e st' else (Raise e, st')
  | r => r
  end.

(** [for x in l: body(x)] *)
Fixpoint for_each {A} (l : list A) (body : A -> M unit) : M unit :=
  match l with
  | [] => mret tt
  | x :: l' => _ ← body x; for_each l' body
  end.

Definition log_event (e : event) (st : state) : state :=
  mkState (base_url st) (results st) (queue st) (visited st)
          (trace st ++ [e]) (world st).

(** [queue.popleft()] *)
Definition popleft : M (string * Z) := fun st =>
  match queue st with
  | [] => (Raise (OtherError "pop from an empty deque"), st)
  | x :: q =>
      (Ok x, mkState (base_url st) (results st) q (visited st)
                     (trace st) (world st))
  end.

(** [visited.add(url)] *)
Definition visited_add (url : string) : M unit :=
  modify (fun st =>
    log_event (Marked url)
      (mkState (base_url st) (results st) (queue st)
               ({[url]} ∪ visited st) (trace st) (world st))).

(** [await self.crawler.arun(url)] *)
Definition crawler_arun (url : string) (depth : Z) : M CrawlResult := fun st =>
  let '(r, w) := arun url (world st) in
  (r, log_event (Fetched url depth r)
        (mkState (base_url st) (results st) (queue st) (visited st)
                 (trace st) w)).

(** [results[url] = result] *)
Definition results_set (url : string) (r : CrawlResult) : M unit :=
  modify (fun st =>
    mkState (base_url st) (Dict.set url r (results st)) (queue st)
            (visited st) (trace st) (world st)).

(** [queue.append((url, depth))] *)
Definition queue_append (url : string) (depth : Z) : M unit :=
  modify (fun st =>
    log_event (Enqueued url depth)
      (mkState (base_url st) (results st) (queue st ++ [(url, depth)])
               (visited st) (trace st) (world st))).

(** [link['href']] *)
Definition link_href (link : gmap string string) : result string :=
  match link !! "href" with
  | Some h => Ok h
  | None => Raise (KeyError "href")
  end.

(** The body of [for link in internal_links], with its
    [except ValueError: continue] *)
Definition process_link (current_url : string) (current_depth : Z)
    (link : gmap string string) : M unit :=
  try_except
    (href ← lift (link_href link);
     root ← gets base_url;
     full_url ← lift (join_url root current_url href);
     normalized_url ← lift (normalize_url full_url);
     valid ← lift (is_valid_internal_link root normalized_url);
     seen ← gets visited;
     if valid && negb (bool_decide (normalized_url ∈ seen))
     then queue_append normalized_url (current_depth + 1)
     else mret tt)
    is_ValueError
    (fun _ => mret tt).

(** One pass through the body of [while queue], with its
    [except Exception: continue] *)
Definition iteration (max_depth : Z) : M unit :=
  try_except
    ('(current_url, current_depth) ← popleft;
     seen ← gets visited;
     if bool_decide (current_url ∈ seen) || (max_depth <? current_depth)
     then mret tt
     else
       _ ← visited_add current_url;
       result ← crawler_arun current_url current_depth;
       if success result then
         _ ← results_set current_url result;
         if current_depth <? max_depth then
           for_each (default [] (links result !! "internal"))
                    (process_link current_url current_depth)
         else mret tt
       else mret tt)
    (fun _ => true)
    (fun _ => mret tt).

(** [while queue: ...]; [None] when the fuel runs out first *)
Fixpoint while_queue (fuel : nat) (max_depth : Z) (st : state)
  : option state :=
  match queue st with
  | [] => Some st
  | _ :: _ =>
      match fuel with
      | O => None
      | S fuel' => while_queue fuel' max_depth (snd (iteration max_depth st))
      end
  end.

(** [scrape(start_url, max_depth)] on a scraper whose [base_url] attribute
    is [self_base_url], started in world [w].  The answer pairs what
    [scrape] returns or raises with the final state, whose trace lists
    what this call did. *)
Definition scrape (fuel : nat) (start_url : string) (max_depth : Z)
    (self_base_url : option string) (w : W)
  : option (result (list (string * CrawlResult)) * state) :=
  match normalize_url start_url with
  | Raise e => Some (Raise e, mkState self_base_url [] [] ∅ [] w)
  | Ok root =>
      match while_queue fuel max_depth
              (mkState (Some root) [] [(root, 0)] ∅ [] w) with
      | Some st => Some (Ok (results st), st)
      | None => None
      end
  end.

End Scraper.

(** ** [CustomCrawler.scrapper_tool] *)





Section CustomCrawler.

Context {W : Type}.
Variable arun : string -> W -> result CrawlResult * W.
(** [AsyncWebCrawler().__aenter__()] and [__aexit__] *)
Variable crawler_enter : W -> result unit * W.
Variable crawler_exit : W -> result unit * W.
(** [LLMExtractionStrategy(provider=..., instruction=...)] *)
Variable strategy_init : W -> result unit * W.
(** Opening [name] for writing and writing [content]; fails with an
    [IOError] *)
Variable file_write : string -> string -> W -> result unit * W.



End CustomCrawler.

(** ** Vocabulary of the statements *)

(** The fetches of a trace, oldest first: URL, depth, and what [arun]
    returned or raised *)
Fixpoint fetches (tr : list event) : list (string * Z * result CrawlResult) :=
  match tr with
  | [] => []
  | Fetched u d o :: tr' => (u, d, o) :: fetches tr'
  | _ :: tr' => fetches tr'
  end.

Definition fetched_urls (tr : list event) : list string :=
  map (fun x => x.1.1) (fetches tr).

(** The URLs added to [visited], oldest first *)
Fixpoint marked_urls (tr : list event) : list string :=
  match tr with
  | [] => []
  | Marked u :: tr' => u :: marked_urls tr'
  | _ :: tr' => marked_urls tr'
  end.

(** The pairs appended to the frontier, oldest first *)
Fixpoint enqueued (tr : list event) : list (string * Z) :=
  match tr with
  | [] => []
  | Enqueued u d :: tr' => (u, d) :: enqueued tr'
  | _ :: tr' => enqueued tr'
  end.

(** A fetch succeeded when [arun] returned a result with [success] set;
    it failed when [arun] raised or returned [success = False] *)
Definition fetch_succeeded (o : result CrawlResult) : bool :=
  match o with
  | Ok r => success r
  | Raise _ => false
  end.

Definition failed_fetches (tr : list event)
  : list (string * Z * result CrawlResult) :=
  filter (fun x => negb (fetch_succeeded x.2)) (fetches tr).

Definition successful_fetches (tr : list event)
  : list (string * Z * result CrawlResult) :=
  filter (fun x => fetch_succeeded x.2) (fetches tr).

(** A trace in which every fetch comes directly after the insertion of
    its URL into [visited], and every such insertion is directly followed
    by that fetch *)
Fixpoint marked_before_fetch (tr : list event) : Prop :=
  match tr with
  | [] => True
  | Marked u :: Fetched u' _ _ :: tr' => u = u' ∧ marked_before_fetch tr'
  | Marked _ :: _ => False
  | Fetched _ _ _ :: _ => False
  | _ :: tr' => marked_before_fetch tr'
  end.




Section Steps.

Context {W : Type}.
Variable arun : string -> W -> result CrawlResult * W.

Definition set_queue (q : list (string * Z)) (st : @state W) : state :=
  mkState (base_url st) (results st) q (visited st) (trace st) (world st).

(** The state after the pairs [new] were appended to the frontier *)
Definition enqueue_all (new : list (string * Z)) (st : @state W) : state :=
  mkState (base_url st) (results st) (queue st ++ new) (visited st)
          (trace st ++ map (fun x => Enqueued x.1 x.2) new) (world st).

(** The state right after [visited.add(u)] and the fetch of [u] at depth
    [d], the frontier already popped to [q] *)
Definition fetched_state (st : @state W) (u : string) (d : Z)
    (q : list (string * Z)) (o : result CrawlResult) (w' : W) : state :=
  mkState (base_url st) (results st) q ({[u]} ∪ visited st)
          (trace st ++ [Marked u; Fetched u d o]) w'.

(** [results[u] = r] on that state *)
Definition recorded_state (st : @state W) (u : string) (d : Z)
    (q : list (string * Z)) (r : CrawlResult) (w' : W) : state :=
  mkState (base_url st) (Dict.set u r (results st)) q ({[u]} ∪ visited st)
          (trace st ++ [Marked u; Fetched u d (Ok r)]) w'.

(** One pass of the loop body, as a relation between states *)
Inductive step (max_depth : Z) : @state W -> @state W -> Prop :=
| step_skip st u d q :
    queue st = (u, d) :: q ->
    u ∈ visited st ∨ max_depth < d ->
    step max_depth st (set_queue q st)
| step_failed st u d q o w' :
    queue st = (u, d) :: q ->
    u ∉ visited st -> d <= max_depth ->
    arun u (world st) = (o, w') ->
    fetch_succeeded o = false ->
    step max_depth st (fetched_state st u d q o w')
| step_recorded st u d q r w' new :
    queue st = (u, d) :: q ->
    u ∉ visited st -> d <= max_depth ->
    arun u (world st) = (Ok r, w') ->
    success r = true ->
    (new ≠ [] -> d < max_depth) ->
    Forall (fun x => x.2 = d + 1) new ->
    step max_depth st (enqueue_all new (recorded_state st u d q r w')).

(** The loop has run to completion from [st], ending in [st'] *)
Definition runs_to (max_depth : Z) (st st' : @state W) : Prop :=
  ∃ fuel, while_queue arun fuel max_depth st = Some st'.

(** The loop runs to completion from [st] *)
Definition terminates (max_depth : Z) (st : @state W) : Prop :=
  ∃ st', runs_to max_depth st st'.

(** The measure of termination: an entry at depth [d] weighs
    [max_depth + 1 - d], and nothing when it is deeper than [max_depth] *)
Definition weight (max_depth : Z) (x : string * Z) : nat :=
  Z.to_nat (max_depth + 1 - x.2).

(** What the traversal maintains *)
Record invariant (max_depth : Z) (st : @state W) : Prop := mkInvariant {
  inv_visited : ∀ u, u ∈ visited st ↔ u ∈ marked_urls (trace st);
  inv_marked_once : NoDup (marked_urls (trace st));
  inv_paired : marked_before_fetch (trace st);
  inv_depth : ∀ u d o, (u, d, o) ∈ fetches (trace st) -> d <= max_depth;
  inv_results :
    map (fun x => (x.1.1, x.2)) (successful_fetches (trace st))
    = map (fun x => (x.1, Ok x.2)) (results st) }.


End Steps.

(** ** Example sites *)

Definition href_link (h : string) : gmap string string := {[ "href" := h ]}.

(** A page fetched with success whose internal links are [ls] *)
Definition page_with (ls : list (gmap string string)) : CrawlResult :=
  mkCrawlResult true "" "text" {[ "internal" := ls ]}.


(** The start page links to [a] and [b]; each of them links to [c]. *)
Definition diamond_site (u : string) (w : unit) : result CrawlResult * unit :=
  (if String.eqb u "https://a.com/docs" then
     Ok (page_with [href_link "/docs/a"; href_link "/docs/b"])
   else if String.eqb u "https://a.com/docs/a" then
     Ok (page_with [href_link "/docs/c"])
   else if String.eqb u "https://a.com/docs/b" then
     Ok (page_with [href_link "https://a.com/docs/c"])
   else if String.eqb u "https://a.com/docs/c" then
     Ok (page_with [])
   else Raise (OtherError "not found"), w).


(** The start page has a link dictionary without ["href"] between two
    well-formed links. *)
Definition malformed_site (u : string) (w : unit) : result CrawlResult * unit :=
  (if String.eqb u "https://a.com/docs" then
     Ok (page_with [href_link "/docs/a"; ∅; href_link "/docs/b"])
   else Ok (page_with []), w).

(** ** The stages of [urlsplit], named for the proofs *)

Module Stages.
Import Str Urllib.


















End Stages.


(** * Properties *)

(** ** The loop body *)

Section LoopBody.

Context {W : Type}.
Variable arun : string -> W -> result CrawlResult * W.

Lemma enqueue_all_nil (st : @state W) : enqueue_all [] st = st.
Proof. destruct st; unfold enqueue_all; simpl. by rewrite !app_nil_r. Qed.

Lemma enqueue_all_app (n1 n2 : list (string * Z)) (st : @state W) :
  enqueue_all n2 (enqueue_all n1 st) = enqueue_all (n1 ++ n2) st.
Proof.
  unfold enqueue_all; simpl. by rewrite map_app, !app_assoc.
Qed.

(** A link appends at most one pair, one level deeper, and changes
    nothing else; it raises no [ValueError]. *)
Lemma process_link_enqueues (u : string) (d : Z) (link : gmap string string)
    (st : @state W) :
  ∃ new o,
    process_link u d link st = (o, enqueue_all new st)
    ∧ Forall (fun x => x.2 = d + 1) new
    ∧ (∀ e, o = Raise e -> is_ValueError e = false).
Proof.
  unfold process_link, try_except, mbind, M_bind, lift, gets, link_href.
  destruct (link !! "href") as [href|]; simpl.
  2:{ exists [], (Raise (KeyError "href")). rewrite enqueue_all_nil.
      repeat split; [constructor|]. by intros e [= <-]. }
  destruct (join_url (base_url st) u href) as [full|e] eqn:Hj; simpl.
  2:{ exists [], (Ok tt). rewrite enqueue_all_nil.
      assert (is_ValueError e = true) as ->.
      { unfold join_url in Hj. repeat case_match; by simplify_eq. }
      repeat split; [constructor|]. by intros e' [=]. }
  destruct (normalize_url full) as [norm|e] eqn:Hn; simpl.
  2:{ exists [], (Ok tt). rewrite enqueue_all_nil.
      assert (is_ValueError e = true) as ->.
      { unfold normalize_url in Hn. repeat case_match; by simplify_eq. }
      repeat split; [constructor|]. by intros e' [=]. }
  destruct (is_valid_internal_link (base_url st) norm) as [valid|e] eqn:Hv;
    simpl.
  2:{ unfold is_valid_internal_link in Hv. by repeat case_match. }
  destruct (valid && negb (bool_decide (norm ∈ visited st))); simpl.
  - exists [(norm, d + 1)], (Ok tt). repeat split.
    + by repeat constructor.
    + by intros e [=].
  - exists [], (Ok tt). rewrite enqueue_all_nil.
    repeat split; [constructor|]. by intros e [=].
Qed.

Lemma for_each_enqueues (u : string) (d : Z)
    (ls : list (gmap string string)) (st : @state W) :
  ∃ new o,
    for_each ls (process_link u d) st = (o, enqueue_all new st)
    ∧ Forall (fun x => x.2 = d + 1) new.
Proof.
  revert st. induction ls as [|link ls IH]; intros st; simpl.
  - exists [], (Ok tt). by rewrite enqueue_all_nil.
  - unfold mbind, M_bind.
    destruct (process_link_enqueues u d link st) as (n1 & o1 & -> & Hn1 & _).
    destruct o1 as [[]|e].
    + destruct (IH (enqueue_all n1 st)) as (n2 & o2 & -> & Hn2).
      exists (n1 ++ n2), o2. rewrite enqueue_all_app. split; [done|].
      by apply Forall_app.
    + by exists n1, (Raise e).
Qed.

(** The body on an entry that is skipped: nothing but the pop. *)
Lemma iteration_skip (max_depth : Z) (st : @state W) u d q :
  queue st = (u, d) :: q ->
  bool_decide (u ∈ visited st) || (max_depth <? d) = true ->
  iteration arun max_depth st = (Ok tt, set_queue q st).
Proof.
  intros Hq Hs.
  unfold iteration, try_except, mbind, M_bind, popleft, gets.
  rewrite Hq. simpl. by rewrite Hs.
Qed.

(** The body on an entry that is visited. *)
Lemma iteration_visit (max_depth : Z) (st : @state W) u d q :
  queue st = (u, d) :: q ->
  bool_decide (u ∈ visited st) || (max_depth <? d) = false ->
  snd (iteration arun max_depth st) =
    match arun u (world st) with
    | (Ok r, w') =>
        if success r then
          if d <? max_depth then
            snd (for_each (default [] (links r !! "internal"))
                          (process_link u d) (recorded_state st u d q r w'))
          else recorded_state st u d q r w'
        else fetched_state st u d q (Ok r) w'
    | (Raise e, w') => fetched_state st u d q (Raise e) w'
    end.
Proof.
  intros Hq Hs.
  unfold iteration, try_except, mbind, M_bind, popleft, gets, visited_add,
    crawler_arun, results_set, modify, log_event.
  rewrite Hq. simpl. rewrite Hs. simpl.
  destruct (arun u (world st)) as [[r|e] w'] eqn:Ha; simpl.
  - unfold fetched_state, recorded_state. rewrite <- !app_assoc. simpl.
    destruct (success r); [|done].
    destruct (d <? max_depth); [|done].
    by destruct (for_each _ _ _) as [[[]|?] ?].
  - unfold fetched_state. by rewrite <- !app_assoc.
Qed.

(** Every pass of the body on a non-empty frontier is a [step]. *)
Lemma iteration_step (max_depth : Z) (st : @state W) :
  queue st ≠ [] ->
  step arun max_depth st (snd (iteration arun max_depth st)).
Proof.
  intros Hne. destruct (queue st) as [|[u d] q] eqn:Hq; [done|].
  destruct (bool_decide (u ∈ visited st) || (max_depth <? d)) eqn:Hs.
  - rewrite (iteration_skip _ _ _ _ _ Hq Hs). simpl.
    apply (step_skip _ _ st u d q Hq).
    apply orb_true_iff in Hs as [Hs|Hs].
    + left. by apply bool_decide_eq_true in Hs.
    + right. lia.
  - rewrite (iteration_visit _ _ _ _ _ Hq Hs).
    apply orb_false_iff in Hs as [Hv Hd].
    apply bool_decide_eq_false in Hv.
    assert (d <= max_depth) as Hle by lia.
    destruct (arun u (world st)) as [[r|e] w'] eqn:Ha.
    + destruct (success r) eqn:Hsucc.
      * destruct (d <? max_depth) eqn:Hlt.
        -- destruct (for_each_enqueues u d (default [] (links r !! "internal"))
                       (recorded_state st u d q r w')) as (new & o & -> & Hn).
           simpl. apply step_recorded; try done. lia.
        -- rewrite <- (enqueue_all_nil (recorded_state st u d q r w')).
           by apply step_recorded.
      * by apply step_failed.
    + by apply step_failed.
Qed.

End LoopBody.

(** ** Traces *)

Lemma fetches_app (t1 t2 : list event) :
  fetches (t1 ++ t2) = fetches t1 ++ fetches t2.
Proof. induction t1 as [|[] t1 IH]; simpl; by rewrite ?IH. Qed.

Lemma marked_urls_app (t1 t2 : list event) :
  marked_urls (t1 ++ t2) = marked_urls t1 ++ marked_urls t2.
Proof. induction t1 as [|[] t1 IH]; simpl; by rewrite ?IH. Qed.

Lemma enqueued_app (t1 t2 : list event) :
  enqueued (t1 ++ t2) = enqueued t1 ++ enqueued t2.
Proof. induction t1 as [|[] t1 IH]; simpl; by rewrite ?IH. Qed.

Lemma fetches_enqueues (new : list (string * Z)) :
  fetches (map (fun x => Enqueued x.1 x.2) new) = [].
Proof. by induction new. Qed.

Lemma marked_urls_enqueues (new : list (string * Z)) :
  marked_urls (map (fun x => Enqueued x.1 x.2) new) = [].
Proof. by induction new. Qed.

Lemma enqueued_enqueues (new : list (string * Z)) :
  enqueued (map (fun x => Enqueued x.1 x.2) new) = new.
Proof. induction new as [|[] new IH]; simpl; by rewrite ?IH. Qed.

Lemma marked_before_fetch_enqueues (new : list (string * Z)) :
  marked_before_fetch (map (fun x => Enqueued x.1 x.2) new).
Proof. by induction new. Qed.

Lemma marked_before_fetch_app (t1 t2 : list event) :
  marked_before_fetch t1 -> marked_before_fetch t2 ->
  marked_before_fetch (t1 ++ t2).
Proof.
  intros H1 H2.
  cut ((marked_before_fetch t1 -> marked_before_fetch (t1 ++ t2))
       ∧ ∀ e, marked_before_fetch (e :: t1) ->
              marked_before_fetch ((e :: t1) ++ t2)); [tauto|].
  clear H1. induction t1 as [|e1 t1 [IH1 IH2]].
  - split; [done|]. intros []; simpl; tauto.
  - split; [apply IH2|].
    intros e H. destruct e; simpl in *; try by apply IH2.
    + destruct e1; try done. destruct H as [-> H]. split; [done|tauto].
    + done.
Qed.

(** In such a trace the URLs fetched are the URLs marked, in order. *)
Lemma marked_before_fetch_urls (tr : list event) :
  marked_before_fetch tr -> marked_urls tr = fetched_urls tr.
Proof.
  unfold fetched_urls.
  cut ((marked_before_fetch tr ->
        marked_urls tr = map (fun x => x.1.1) (fetches tr))
       ∧ ∀ e, marked_before_fetch (e :: tr) ->
              marked_urls (e :: tr) = map (fun x => x.1.1) (fetches (e :: tr)));
    [tauto|].
  induction tr as [|e1 tr [IH1 IH2]].
  - split; [done|]. by intros [].
  - split; [apply IH2|].
    intros e H. destruct e; try (simpl in *; by apply IH2); [|done].
    destruct e1; try done. destruct H as [-> H]. simpl. f_equal. tauto.
Qed.

(** Each fetch in such a trace has the insertion of its URL directly
    before it. *)
Lemma marked_before_fetch_split (tr t1 t2 : list event) u d o :
  marked_before_fetch tr ->
  tr = t1 ++ Fetched u d o :: t2 ->
  ∃ t0, t1 = t0 ++ [Marked u].
Proof.
  intros H ->. revert H.
  cut ((marked_before_fetch (t1 ++ Fetched u d o :: t2) ->
        ∃ t0, t1 = t0 ++ [Marked u])
       ∧ ∀ e, marked_before_fetch (e :: t1 ++ Fetched u d o :: t2) ->
              ∃ t0, e :: t1 = t0 ++ [Marked u]); [tauto|].
  induction t1 as [|e1 t1 [IH1 IH2]].
  - split; [done|]. intros [] H; simpl in H; try done.
    destruct H as [-> _]. by exists [].
  - split; [apply IH2|].
    intros e H. destruct e; simpl in H; try done.
    1:{ destruct e1; try done. destruct H as [_ H].
        destruct (IH1 H) as [t0 ->]. by eexists (_ :: _ :: t0). }
    all: destruct (IH2 _ H) as [t0 Ht0]; rewrite Ht0; by eexists (_ :: t0).
Qed.

(** ** The result dictionary *)

Lemma dict_set_fresh {V : Type} (k : string) (v : V) (d : list (string * V)) :
  k ∉ Dict.keys d -> Dict.set k v d = d ++ [(k, v)].
Proof.
  induction d as [|[k' v'] d IH]; simpl; [done|].
  intros Hk. apply not_elem_of_cons in Hk as [Hne Hk].
  destruct (String.eqb_spec k' k) as [->|_]; [done|]. by rewrite IH.
Qed.



(** ** What the traversal maintains *)

Section Invariant.

Context {W : Type}.
Variable arun : string -> W -> result CrawlResult * W.
Variable max_depth : Z.

Lemma invariant_init (root : option string) (q : list (string * Z)) (w : W) :
  invariant max_depth (mkState root [] q ∅ [] w).
Proof.
  split; simpl; try done.
  - intros u. split; [set_solver|by intros ?%elem_of_nil].
  - constructor.
  - by intros u d o ?%elem_of_nil.
Qed.

(** The keys of the dictionary are URLs that were marked. *)
Lemma invariant_keys_marked (st : @state W) u :
  invariant max_depth st -> u ∈ Dict.keys (results st) ->
  u ∈ marked_urls (trace st).
Proof.
  intros [_ _ Hp _ Hr] Hu.
  rewrite (marked_before_fetch_urls _ Hp). unfold fetched_urls.
  assert (Dict.keys (results st)
          = map (fun x => x.1.1) (successful_fetches (trace st))) as Hk.
  { unfold Dict.keys.
    transitivity (map fst (map (fun x : string * CrawlResult => (x.1, Ok x.2))
                               (results st))).
    - rewrite map_map. by apply map_ext.
    - rewrite <- Hr, map_map. by apply map_ext. }
  rewrite Hk in Hu. apply list_elem_of_fmap in Hu as (x & -> & Hx).
  apply list_elem_of_fmap. exists x. split; [done|].
  unfold successful_fetches in Hx. by apply list_elem_of_filter in Hx as [_ ?].
Qed.

Lemma invariant_visit_failed (st : @state W) u d q o w' :
  invariant max_depth st ->
  u ∉ visited st -> d <= max_depth -> fetch_succeeded o = false ->
  invariant max_depth (fetched_state st u d q o w').
Proof.
  intros Hinv Hu Hd Hf. destruct Hinv as [Hv Hn Hp Hdep Hr].
  split; simpl.
  - intros v. rewrite marked_urls_app. simpl.
    rewrite elem_of_union, elem_of_singleton, elem_of_app, Hv.
    rewrite list_elem_of_singleton. tauto.
  - rewrite marked_urls_app. simpl. apply NoDup_app. split; [done|].
    split; [|apply NoDup_singleton].
    intros v Hv' ->%list_elem_of_singleton. by apply Hu, Hv.
  - apply marked_before_fetch_app; [done|]. by simpl.
  - intros v dv ov. rewrite fetches_app. simpl.
    intros [?|[= -> -> ->]%list_elem_of_singleton]%elem_of_app; [|done].
    by eapply Hdep.
  - unfold successful_fetches. rewrite fetches_app, filter_app. simpl.
    unfold filter at 2; simpl. rewrite Hf. simpl.
    rewrite app_nil_r. apply Hr.
Qed.

Lemma invariant_visit_recorded (st : @state W) u d q r w' new :
  invariant max_depth st ->
  u ∉ visited st -> d <= max_depth -> success r = true ->
  invariant max_depth (enqueue_all new (recorded_state st u d q r w')).
Proof.
  intros Hinv Hu Hd Hs.
  assert (u ∉ Dict.keys (results st)) as Hfresh.
  { intros Hk. apply Hu. apply (inv_visited _ _ Hinv).
    by apply invariant_keys_marked. }
  destruct Hinv as [Hv Hn Hp Hdep Hr].
  split; simpl.
  - intros v. rewrite !marked_urls_app, marked_urls_enqueues. simpl.
    rewrite app_nil_r.
    rewrite elem_of_union, elem_of_singleton, elem_of_app, Hv.
    rewrite list_elem_of_singleton. tauto.
  - rewrite !marked_urls_app, marked_urls_enqueues. simpl.
    rewrite app_nil_r. apply NoDup_app. split; [done|].
    split; [|apply NoDup_singleton].
    intros v Hv' ->%list_elem_of_singleton. by apply Hu, Hv.
  - apply marked_before_fetch_app;
      [apply marked_before_fetch_app; [done|by simpl]|].
    apply marked_before_fetch_enqueues.
  - intros v dv ov. rewrite !fetches_app, fetches_enqueues. simpl.
    rewrite app_nil_r.
    intros [?|[= -> -> ->]%list_elem_of_singleton]%elem_of_app; [|done].
    by eapply Hdep.
  - unfold successful_fetches.
    rewrite !fetches_app, fetches_enqueues, app_nil_r, filter_app. simpl.
    unfold filter at 2; simpl. rewrite Hs. simpl.
    rewrite dict_set_fresh by done. rewrite !map_app. simpl.
    f_equal. apply Hr.
Qed.

Lemma invariant_step (st st' : @state W) :
  step arun max_depth st st' ->
  invariant max_depth st -> invariant max_depth st'.
Proof.
  intros Hstep Hinv. destruct Hstep.
  - by destruct Hinv.
  - by apply invariant_visit_failed.
  - by apply invariant_visit_recorded.
Qed.

Lemma invariant_while (fuel : nat) (st st' : @state W) :
  while_queue arun fuel max_depth st = Some st' ->
  invariant max_depth st -> invariant max_depth st'.
Proof.
  revert st. induction fuel as [|fuel IH]; intros st; simpl.
  - destruct (queue st) eqn:Hq; [|done]. by intros [= <-].
  - destruct (queue st) eqn:Hq; [by intros [= <-]|].
    intros Hw Hinv. apply (IH _ Hw).
    eapply invariant_step; [|done]. apply iteration_step. by rewrite Hq.
Qed.

(** When the loop ends the frontier is empty. *)
Lemma while_queue_empty (fuel : nat) (st st' : @state W) :
  while_queue arun fuel max_depth st = Some st' -> queue st' = [].
Proof.
  revert st. induction fuel as [|fuel IH]; intros st; simpl.
  - destruct (queue st) eqn:Hq; [|done]. by intros [= <-].
  - destruct (queue st) eqn:Hq; [by intros [= <-]|]. apply IH.
Qed.

(** More fuel does not change the outcome. *)
Lemma while_queue_more_fuel (fuel fuel' : nat) (st st' : @state W) :
  while_queue arun fuel max_depth st = Some st' -> (fuel <= fuel')%nat ->
  while_queue arun fuel' max_depth st = Some st'.
Proof.
  revert fuel' st. induction fuel as [|fuel IH]; intros fuel' st; simpl.
  - destruct (queue st) eqn:Hq; [|done]. intros [= <-] _.
    destruct fuel'; simpl; by rewrite Hq.
  - destruct (queue st) eqn:Hq.
    + intros [= <-] _. destruct fuel'; simpl; by rewrite Hq.
    + intros Hw Hle. destruct fuel' as [|fuel']; [lia|]. simpl. rewrite Hq.
      apply IH; [done|lia].
Qed.

End Invariant.

(** ** Termination

    A pass of the body removes the oldest entry and appends only entries
    that weigh less. *)

Section Termination.

Context {W : Type}.
Variable arun : string -> W -> result CrawlResult * W.
Variable max_depth : Z.

Lemma terminates_empty (st : @state W) :
  queue st = [] -> terminates arun max_depth st.
Proof. intros Hq. exists st, O. simpl. by rewrite Hq. Qed.

Lemma terminates_step (st : @state W) :
  queue st ≠ [] ->
  terminates arun max_depth (snd (iteration arun max_depth st)) ->
  terminates arun max_depth st.
Proof.
  intros Hne (st' & fuel & Hw). exists st', (S fuel). simpl.
  by destruct (queue st).
Qed.

Lemma terminates_weightless (q : list (string * Z)) :
  ∀ st : @state W,
    queue st = q -> Forall (fun x => weight max_depth x = O) q ->
    terminates arun max_depth st.
Proof.
  induction q as [|[u d] q IH]; intros st Hq Hw.
  - by apply terminates_empty.
  - apply terminates_step; [by rewrite Hq|].
    apply Forall_cons in Hw as [Hd Hw]. unfold weight in Hd; simpl in Hd.
    assert (queue st ≠ []) as Hne by by rewrite Hq.
    destruct (iteration_step arun max_depth st Hne)
      as [st u' d' q' Hq' _|st u' d' q' o w' Hq' _ Hle|
          st u' d' q' r w' new Hq' _ Hle];
      rewrite Hq in Hq'; simplify_eq; try lia.
    by apply IH.
Qed.

Lemma terminates_layer (k : nat) :
  (∀ st : @state W,
     Forall (fun x => (weight max_depth x <= k)%nat) (queue st) ->
     terminates arun max_depth st) ->
  ∀ (front back : list (string * Z)) (st : @state W),
    queue st = front ++ back ->
    Forall (fun x => (weight max_depth x <= S k)%nat) front ->
    Forall (fun x => (weight max_depth x <= k)%nat) back ->
    terminates arun max_depth st.
Proof.
  intros Hk front.
  induction front as [|[u d] front IH]; intros back st Hq Hf Hb.
  - apply Hk. by rewrite Hq.
  - apply terminates_step; [by rewrite Hq|].
    apply Forall_cons in Hf as [Hd Hf]. unfold weight in Hd; simpl in Hd.
    assert (queue st ≠ []) as Hne by by rewrite Hq.
    destruct (iteration_step arun max_depth st Hne)
      as [st u' d' q' Hq' _|st u' d' q' o w' Hq' _ Hle|
          st u' d' q' r w' new Hq' _ Hle _ _ _ Hnew];
      rewrite Hq in Hq'; simpl in Hq'; simplify_eq.
    + by apply (IH back).
    + by apply (IH back).
    + apply (IH (back ++ new)); [by simpl; rewrite app_assoc|done|].
      apply Forall_app. split; [done|].
      eapply Forall_impl; [exact Hnew|]. intros [v dv] Hv. simpl in Hv.
      unfold weight; simpl. lia.
Qed.

Lemma terminates_bounded (k : nat) :
  ∀ st : @state W,
    Forall (fun x => (weight max_depth x <= k)%nat) (queue st) ->
    terminates arun max_depth st.
Proof.
  induction k as [|k IH]; intros st Hw.
  - apply (terminates_weightless (queue st)); [done|].
    eapply Forall_impl; [exact Hw|]. intros x Hx. simpl in Hx. lia.
  - apply (terminates_layer k IH (queue st) []); [by rewrite app_nil_r|done|].
    constructor.
Qed.

(** The loop ends from every state, whatever the crawler answers. *)
Lemma while_queue_terminates (st : @state W) : terminates arun max_depth st.
Proof.
  apply (terminates_bounded
           (foldr Nat.max O (map (weight max_depth) (queue st)))).
  induction (queue st) as [|x q IH]; constructor; simpl; [lia|].
  eapply Forall_impl; [exact IH|]. intros y Hy. simpl in Hy. lia.
Qed.

End Termination.

(** ** The traversal as a whole *)

Section Traversal.

Context {W : Type}.
Variable arun : string -> W -> result CrawlResult * W.

(** [scrape] returns, whatever the crawler answers. *)
Lemma scrape_returns (start_url : string) (max_depth : Z)
    (base : option string) (w : W) :
  ∃ fuel r st, scrape arun fuel start_url max_depth base w = Some (r, st).
Proof.
  unfold scrape. destruct (normalize_url start_url) as [root|e].
  - destruct (while_queue_terminates arun max_depth
                (mkState (Some root) [] [(root, 0)] ∅ [] w))
      as (st & fuel & Hw).
    exists fuel, (Ok (results st)), st. by rewrite Hw.
  - by exists O, (Raise e), (mkState base [] [] ∅ [] w).
Qed.

(** What holds of the final state of every call. *)
Lemma scrape_invariant (fuel : nat) (start_url : string) (max_depth : Z)
    (base : option string) (w : W) r st :
  scrape arun fuel start_url max_depth base w = Some (r, st) ->
  invariant max_depth st.
Proof.
  unfold scrape. destruct (normalize_url start_url) as [root|e].
  - destruct (while_queue _ _ _ _) as [st'|] eqn:Hw; [|done].
    intros [= <- <-]. eapply invariant_while; [exact Hw|].
    apply invariant_init.
  - intros [= <- <-]. apply invariant_init.
Qed.

(** The map [scrape] returns is the dictionary of the final state. *)
Lemma scrape_result (fuel : nat) (start_url : string) (max_depth : Z)
    (base : option string) (w : W) m st :
  scrape arun fuel start_url max_depth base w = Some (Ok m, st) ->
  m = results st.
Proof.
  unfold scrape. destruct (normalize_url start_url) as [root|e]; [|done].
  destruct (while_queue _ _ _ _) as [st'|]; [|done]. by intros [= <- <-].
Qed.


Lemma invariant_fetched_once (max_depth : Z) (st : @state W) :
  invariant max_depth st -> NoDup (fetched_urls (trace st)).
Proof.
  intros [_ Hn Hp _ _]. by rewrite <- (marked_before_fetch_urls _ Hp).
Qed.

End Traversal.

(** ** Lists *)

Lemma filter_split_length {A : Type} (p : A -> bool) (l : list A) :
  length l
  = (length (filter (fun x => p x) l)
     + length (filter (fun x => negb (p x)) l))%nat.
Proof.
  induction l as [|x l IH]; [done|].
  rewrite !filter_cons.
  destruct (p x) eqn:Hp; repeat case_decide; simpl in *; try done; lia.
Qed.



(** ** Consequences of the invariant *)

Section Consequences.

Context {W : Type}.
Variable max_depth : Z.

Lemma invariant_size (st : @state W) :
  invariant max_depth st ->
  size (visited st)
  = (length (results st) + length (failed_fetches (trace st)))%nat.
Proof.
  intros Hinv. pose proof Hinv as [Hv Hn Hp _ Hr].
  assert (visited st = list_to_set (marked_urls (trace st))) as ->.
  { apply set_eq. intros u. by rewrite Hv, elem_of_list_to_set. }
  rewrite size_list_to_set by done.
  rewrite (marked_before_fetch_urls _ Hp). unfold fetched_urls.
  rewrite length_map.
  rewrite (filter_split_length (fun x => fetch_succeeded x.2)
             (fetches (trace st))).
  f_equal.
  change (length (successful_fetches (trace st)) = length (results st)).
  apply (f_equal length) in Hr. by rewrite !length_map in Hr.
Qed.




End Consequences.

(** ** The claims about the traversal *)

(** C1. In every call of [scrape] no URL is fetched more than once and
    nothing is fetched at a depth above [max_depth]; every URL is inserted
    into [visited] at most once, and directly before its fetch; and a pass
    of the loop body over an entry whose URL is already in [visited], or
    whose depth exceeds [max_depth], only pops that entry: the trace, the
    world, [visited] and the results stay as they were. *)
Theorem C1_fetch_once_within_depth {W : Type}
    (arun : string -> W -> result CrawlResult * W)
    (fuel : nat) (start_url : string) (max_depth : Z)
    (base : option string) (w : W) r st :
  scrape arun fuel start_url max_depth base w = Some (r, st) ->
  NoDup (fetched_urls (trace st))
  ∧ (∀ u d o, (u, d, o) ∈ fetches (trace st) -> d <= max_depth)
  ∧ NoDup (marked_urls (trace st))
  ∧ (∀ t1 t2 u d o,
       trace st = t1 ++ Fetched u d o :: t2 -> ∃ t0, t1 = t0 ++ [Marked u])
  ∧ (∀ (s : @state W) u d q,
       queue s = (u, d) :: q -> u ∈ visited s ∨ max_depth < d ->
       iteration arun max_depth s = (Ok tt, set_queue q s)).
Proof.
  intros Hrun. pose proof (scrape_invariant _ _ _ _ _ _ _ _ Hrun) as Hinv.
  split; [by eapply invariant_fetched_once|].
  split; [apply (inv_depth _ _ Hinv)|].
  split; [apply (inv_marked_once _ _ Hinv)|].
  split.
  - intros t1 t2 u d o Ht.
    eapply marked_before_fetch_split; [apply (inv_paired _ _ Hinv)|exact Ht].
  - intros s u d q Hq Hs. eapply iteration_skip; [exact Hq|].
    apply orb_true_iff. destruct Hs as [Hs|Hs].
    + left. by apply bool_decide_eq_true.
    + right. lia.
Qed.

Lemma C1_fetch_once_within_depth_witness :
  ∃ r st,
    scrape diamond_site 10 "https://a.com/docs/" 2 None tt = Some (r, st)
    ∧ NoDup (fetched_urls (trace st))
    ∧ (∀ u d o, (u, d, o) ∈ fetches (trace st) -> d <= 2).
Proof.
  destruct (scrape diamond_site 10 "https://a.com/docs/" 2 None tt)
    as [[r st]|] eqn:Hrun; [|by vm_compute in Hrun].
  exists r, st. split; [done|].
  destruct (C1_fetch_once_within_depth diamond_site 10 "https://a.com/docs/"
              2 None tt r st Hrun) as (H1 & H2 & _).
  by split.
Defined.

(** C2. Whatever link graph the crawler presents, cyclic or not, the loop
    of [scrape] ends, and then the size of [visited] is the size of the
    returned map plus the number of fetches that failed (raised, or
    returned [success = False]). *)
Theorem C2_terminates_and_counts {W : Type}
    (arun : string -> W -> result CrawlResult * W)
    (start_url : string) (max_depth : Z) (base : option string) (w : W) :
  ∃ fuel r st,
    scrape arun fuel start_url max_depth base w = Some (r, st)
    ∧ (∀ m, r = Ok m ->
         size (visited st)
         = (length m + length (failed_fetches (trace st)))%nat)
    ∧ (∀ fuel', (fuel <= fuel')%nat ->
         scrape arun fuel' start_url max_depth base w = Some (r, st)).
Proof.
  destruct (scrape_returns arun start_url max_depth base w)
    as (fuel & r & st & Hrun).
  exists fuel, r, st. split; [done|]. split.
  - intros m ->. rewrite (scrape_result _ _ _ _ _ _ _ _ Hrun).
    apply (invariant_size max_depth). by eapply scrape_invariant.
  - intros fuel' Hle. revert Hrun. unfold scrape.
    destruct (normalize_url start_url) as [root|e]; [|done].
    destruct (while_queue arun fuel _ _) as [st'|] eqn:Hw; [|done].
    intros [= <- <-].
    by rewrite (while_queue_more_fuel _ _ _ _ _ _ Hw Hle).
Qed.



(** ** Entries are kept *)

Lemma dict_get_set_eq {V : Type} (k : string) (v : V) (d : list (string * V)) :
  Dict.get k (Dict.set k v d) = Some v.
Proof.
  induction d as [|[k' v'] d IH]; simpl.
  - by rewrite String.eqb_refl.
  - destruct (String.eqb_spec k' k) as [->|Hne]; simpl.
    + by rewrite String.eqb_refl.
    + by destruct (String.eqb_spec k' k).
Qed.

Lemma dict_get_set_ne {V : Type} (k k0 : string) (v : V)
    (d : list (string * V)) :
  k0 ≠ k -> Dict.get k (Dict.set k0 v d) = Dict.get k d.
Proof.
  intros Hne. induction d as [|[k' v'] d IH]; simpl.
  - by destruct (String.eqb_spec k0 k).
  - destruct (String.eqb_spec k' k0) as [->|Hne']; simpl.
    + by destruct (String.eqb_spec k0 k).
    + by rewrite IH.
Qed.

Section Kept.

Context {W : Type}.
Variable arun : string -> W -> result CrawlResult * W.
Variable max_depth : Z.

(** The loop body swallows every exception. *)
Lemma iteration_returns (st : @state W) :
  fst (iteration arun max_depth st) = Ok tt.
Proof.
  unfold iteration, try_except.
  match goal with
  | |- context [match ?b with _ => _ end] => destruct b as [[[]|?] ?]
  end; done.
Qed.

Lemma step_keeps_entry (st st' : @state W) (u : string) :
  step arun max_depth st st' -> u ∈ visited st ->
  u ∈ visited st' ∧ Dict.get u (results st') = Dict.get u (results st).
Proof.
  intros Hstep Hu. destruct Hstep; simpl.
  - done.
  - split; [set_solver|done].
  - split; [set_solver|]. apply dict_get_set_ne. by intros ->.
Qed.

Lemma runs_keeps_entry (st st' : @state W) (u : string) :
  runs_to arun max_depth st st' -> u ∈ visited st ->
  Dict.get u (results st') = Dict.get u (results st).
Proof.
  intros [fuel Hw]. revert st Hw.
  induction fuel as [|fuel IH]; intros st; simpl.
  - destruct (queue st); [|done]. by intros [= <-].
  - destruct (queue st) eqn:Hq; [by intros [= <-]|].
    intros Hw Hu.
    assert (queue st ≠ []) as Hne by by rewrite Hq.
    destruct (step_keeps_entry _ _ u (iteration_step arun max_depth st Hne) Hu)
      as [Hu' <-].
    by apply IH.
Qed.

End Kept.

(** C10. A pass of the loop body that fetches a page with success records
    the page before it looks at the links: link processing starts from the
    state that already holds the entry.  Whatever link processing does,
    also when it raises, the pass itself returns normally, the entries
    that were waiting in the frontier are still there, in order, the loop
    then runs to completion, and the map at the end still holds the
    page. *)
Theorem C10_recorded_page_survives {W : Type}
    (arun : string -> W -> result CrawlResult * W) (max_depth : Z)
    (st : @state W) (u : string) (d : Z) (q : list (string * Z))
    (r : CrawlResult) (w' : W) :
  queue st = (u, d) :: q ->
  u ∉ visited st -> d <= max_depth ->
  arun u (world st) = (Ok r, w') -> success r = true ->
  let recorded := recorded_state st u d q r w' in
  Dict.get u (results recorded) = Some r
  ∧ ∃ new o,
      (if d <? max_depth
       then for_each (default [] (links r !! "internal"))
                     (process_link u d) recorded
       else (Ok tt, recorded))
      = (o, enqueue_all new recorded)
      ∧ iteration arun max_depth st = (Ok tt, enqueue_all new recorded)
      ∧ queue (enqueue_all new recorded) = q ++ new
      ∧ (∃ st', runs_to arun max_depth (enqueue_all new recorded) st')
      ∧ (∀ st', runs_to arun max_depth (enqueue_all new recorded) st' ->
           Dict.get u (results st') = Some r).
Proof.
  intros Hq Hu Hd Ha Hs recorded.
  split; [apply dict_get_set_eq|].
  assert (bool_decide (u ∈ visited st) || (max_depth <? d) = false) as Hv.
  { apply orb_false_iff. split; [by apply bool_decide_eq_false|lia]. }
  pose proof (iteration_visit arun max_depth st u d q Hq Hv) as Hit.
  rewrite Ha, Hs in Hit.
  assert (∃ new o,
            (if d <? max_depth
             then for_each (default [] (links r !! "internal"))
                           (process_link u d) recorded
             else (Ok tt, recorded))
            = (o, enqueue_all new recorded)) as (new & o & Hnew).
  { destruct (d <? max_depth).
    - destruct (for_each_enqueues u d (default [] (links r !! "internal"))
                  recorded) as (new & o & Hf & _).
      by exists new, o.
    - exists [], (Ok tt). by rewrite enqueue_all_nil. }
  exists new, o. split; [done|].
  assert (snd (iteration arun max_depth st) = enqueue_all new recorded) as Hsnd.
  { rewrite Hit. fold recorded. destruct (d <? max_depth).
    - by rewrite Hnew.
    - exact (f_equal snd Hnew). }
  split.
  { rewrite <- Hsnd, <- (iteration_returns arun max_depth st).
    by destruct (iteration arun max_depth st). }
  split; [done|].
  split; [apply while_queue_terminates|].
  intros st' Hrun.
  rewrite (runs_keeps_entry arun max_depth _ _ u Hrun).
  - simpl. apply dict_get_set_eq.
  - simpl. set_solver.
Qed.

Lemma C10_recorded_page_survives_witness :
  let st := mkState (Some "https://a.com/docs") []
                    [("https://a.com/docs", 0); ("https://a.com/docs/z", 1)]
                    ∅ [] tt in
  let recorded :=
    recorded_state st "https://a.com/docs" 0 [("https://a.com/docs/z", 1)]
      (page_with [href_link "/docs/a"; ∅; href_link "/docs/b"]) tt in
  for_each [href_link "/docs/a"; ∅; href_link "/docs/b"]
           (process_link "https://a.com/docs" 0) recorded
  = (Raise (KeyError "href"),
     enqueue_all [("https://a.com/docs/a", 1)] recorded)
  ∧ ∃ new,
      iteration malformed_site 1 st = (Ok tt, enqueue_all new recorded)
      ∧ ∀ st', runs_to malformed_site 1 (enqueue_all new recorded) st' ->
          Dict.get "https://a.com/docs" (results st')
          = Some (page_with [href_link "/docs/a"; ∅; href_link "/docs/b"]).
Proof.
  intros st recorded. split; [by vm_compute|].
  destruct (C10_recorded_page_survives malformed_site 1 st
              "https://a.com/docs" 0 [("https://a.com/docs/z", 1)]
              (page_with [href_link "/docs/a"; ∅; href_link "/docs/b"]) tt)
    as (_ & new & o & _ & Hit & _ & _ & Hkeep).
  - reflexivity.
  - vm_compute. intros H. discriminate H.
  - lia.
  - reflexivity.
  - reflexivity.
  - exists new. by split.
Defined.

(** ** The entry point and the start URL *)

(** [scrape] itself has no test on [max_depth]: with a negative depth it
    skips the only entry of the frontier and returns an empty map, having
    fetched nothing. *)
Lemma scrape_negative_depth {W : Type}
    (arun : string -> W -> result CrawlResult * W)
    (start_url root : string) (max_depth : Z) (base : option string) (w : W) :
  max_depth < 0 -> normalize_url start_url = Ok root ->
  scrape arun 1 start_url max_depth base w
  = Some (Ok [], mkState (Some root) [] [] ∅ [] w).
Proof.
  intros Hd Hn. unfold scrape. rewrite Hn. simpl.
  rewrite (iteration_skip arun max_depth _ root 0 []); [done..|].
  apply orb_true_iff. right. lia.
Qed.





(** ** The canonicaliser *)

Lemma append_empty_r (s : string) : s +:+ "" = s.
Proof.
  induction s as [|a s IH]; [done|].
  change (String a s +:+ "") with (String a (s +:+ "")). by rewrite IH.
Qed.

Lemma endswith_app (c : ascii) (s t : string) :
  t ≠ "" -> endswith c (s +:+ t) = endswith c t.
Proof.
  intros Ht. induction s as [|a s IH]; [done|].
  change (String a s +:+ t) with (String a (s +:+ t)).
  destruct (s +:+ t) as [|b r] eqn:Hst.
  - destruct s; [by destruct Ht|done].
  - exact IH.
Qed.

Lemma endswith_slashes (k : nat) : endswith "/" (slashes (S k)) = true.
Proof.
  induction k as [|k IH]; [done|].
  change (slashes (S (S k))) with (String "/" (slashes (S k))).
  change (slashes (S k)) with (String "/" (slashes k)) in *.
  exact IH.
Qed.

Lemma endswith_slashes_false (s : string) (k : nat) :
  endswith "/" (s +:+ slashes k) = false -> k = O.
Proof.
  destruct k as [|k]; [done|].
  rewrite endswith_app by done. by rewrite endswith_slashes.
Qed.

(** [rstrip('/')] removes a run of slashes from the end, and all of it. *)
Lemma rstrip_slashes (s : string) :
  ∃ k, s = rstrip (ch_eqb "/") s +:+ slashes k
       ∧ endswith "/" (rstrip (ch_eqb "/") s) = false.
Proof.
  induction s as [|a s (k & Hk & He)]; simpl.
  - by exists O.
  - destruct (rstrip (ch_eqb "/") s) as [|b r] eqn:Hr.
    + change ("" +:+ slashes k) with (slashes k) in Hk.
      destruct (ch_eqb "/" a) eqn:Ha.
      * apply Ascii.eqb_eq in Ha as <-. exists (S k).
        change ("" +:+ slashes (S k)) with (String "/" (slashes k)).
        by rewrite <- Hk.
      * unfold ch_eqb in Ha. rewrite Ascii.eqb_sym in Ha.
        exists k.
        change (String a "" +:+ slashes k) with (String a (slashes k)).
        rewrite <- Hk. split; [done|]. exact Ha.
    + exists k.
      change (String a (String b r) +:+ slashes k)
        with (String a (String b r +:+ slashes k)).
      rewrite <- Hk. split; [done|]. exact He.
Qed.

(** C5, as the code has it.  For every URL that [urlparse] accepts,
    [normalize_url] returns the URL reassembled by [urlunparse] from the
    parsed components with the fragment emptied and the path changed as
    follows: a path longer than one character that ends in a slash loses
    ALL its trailing slashes (the whole run, not one); every other path,
    the root path "/" among them, is left as it is. *)
Theorem C5_normalize_strips_all_trailing_slashes (url : string)
    (parsed : ParseResult) :
  urlparse url = Ok parsed ->
  ∃ (path' : string) (k : nat),
    normalize_url url
    = Ok (urlunparse (mkParse (scheme parsed) (netloc parsed) path'
                              (params parsed) (query parsed) ""))
    ∧ path parsed = path' +:+ slashes k
    ∧ (k = O ∨ endswith "/" path' = false)
    ∧ (k ≠ O ↔ endswith "/" (path parsed) = true ∧ (1 < len (path parsed))%nat).
Proof.
  intros Hp. unfold normalize_url. rewrite Hp. simpl.
  unfold normalize_parsed. simpl.
  destruct (endswith "/" (path parsed)) eqn:He; simpl.
  - destruct (Nat.ltb_spec 1 (len (path parsed))) as [Hl|Hl]; simpl.
    + destruct (rstrip_slashes (path parsed)) as (k & Hk & Hr).
      exists (rstrip (ch_eqb "/") (path parsed)), k.
      split; [done|]. split; [done|]. split; [by right|].
      split; [done|]. intros _ ->.
      rewrite append_empty_r in Hk. rewrite <- Hk in Hr. congruence.
    + exists (path parsed), O.
      split; [done|]. split; [by rewrite append_empty_r|].
      split; [by left|]. split; [done|]. intros [_ ?]. lia.
  - exists (path parsed), O.
    split; [done|]. split; [by rewrite append_empty_r|].
    split; [by left|]. split; [done|]. by intros [? _].
Qed.

Lemma C5_normalize_strips_all_trailing_slashes_witness :
  ∃ (path' : string) (k : nat),
    normalize_url "https://a.com/x//#frag"
    = Ok (urlunparse (mkParse "https" "a.com" path' "" "" ""))
    ∧ "/x//" = path' +:+ slashes k
    ∧ (k = O ∨ endswith "/" path' = false)
    ∧ (k ≠ O ↔ endswith "/" "/x//" = true ∧ (1 < len "/x//")%nat).
Proof.
  apply (C5_normalize_strips_all_trailing_slashes "https://a.com/x//#frag"
           (mkParse "https" "a.com" "/x//" "" "" "frag")).
  vm_compute. reflexivity.
Defined.

(** C5 as stated fails: on a path that ends in two slashes the code
    removes both, where the claim has exactly one removed. *)
Lemma C5_counterexample :
  normalize_url "https://a.com/x//" = Ok "https://a.com/x"
  ∧ normalize_spec "https://a.com/x//" = Ok "https://a.com/x/"
  ∧ normalize_url "https://a.com/x//" ≠ normalize_spec "https://a.com/x//".
Proof. by vm_compute. Qed.

(** C6, as the code has it.  [is_valid_internal_link] never raises.  It
    answers [True] exactly when the link is not empty, does not start with
    [#], the root and the link both parse, their network locations
    ([netloc]: user information, host and port as written) are the same
    string, the path of the link is neither empty nor "/", and the path of
    the link starts with the path of the root.  In every other case,
    a link or root that does not parse among them, it answers [False]. *)
Theorem C6_is_valid_internal_link_characterised (base : option string)
    (link : string) :
  ∃ b : bool,
    is_valid_internal_link base link = Ok b
    ∧ (b = true ↔
       link ≠ "" ∧ startswith "#" link = false
       ∧ ∃ root parsed_base parsed_link,
           base = Some root
           ∧ urlparse root = Ok parsed_base
           ∧ urlparse link = Ok parsed_link
           ∧ netloc parsed_base = netloc parsed_link
           ∧ path parsed_link ≠ "" ∧ path parsed_link ≠ "/"
           ∧ startswith (path parsed_base) (path parsed_link) = true).
Proof.
  unfold is_valid_internal_link, is_valid_internal_link_body.
  destruct (nonempty link) eqn:Hn; cbn [negb orb].
  2:{ exists false. split; [done|]. split; [done|].
      intros [Hne _]. by destruct link. }
  assert (link ≠ "") as Hne by (by destruct link).
  destruct (startswith "#" link) eqn:Hs.
  { exists false. split; [done|]. split; [done|]. by intros (_ & ? & _). }
  destruct base as [root|].
  2:{ exists false. split; [by destruct (urlparse link)|].
      split; [done|]. by intros (_ & _ & ? & ? & ? & ? & _). }
  destruct (urlparse root) as [pb|e] eqn:Hb; cbn [mbind result_bind rbind].
  2:{ exists false. split; [done|]. split; [done|].
      intros (_ & _ & ? & ? & ? & [= <-] & ? & _). congruence. }
  destruct (urlparse link) as [pl|e] eqn:Hk; cbn [mbind result_bind rbind].
  2:{ exists false. split; [done|]. split; [done|].
      by intros (_ & _ & ? & ? & ? & _ & _ & ? & _). }
  eexists. split; [done|].
  rewrite !andb_true_iff, negb_true_iff. unfold in_list. cbn [existsb].
  rewrite !orb_false_iff.
  split.
  - intros [[Hnl [Hp1 [Hp2 _]]] Hsw].
    split; [done|]. split; [done|]. exists root, pb, pl.
    repeat split; try done.
    + by apply String.eqb_eq.
    + by apply String.eqb_neq.
    + by apply String.eqb_neq.
  - intros (_ & _ & root' & pb' & pl' & [= <-] & Hb' & Hk' & Hnl & Hp1 & Hp2
            & Hsw).
    assert (pb' = pb) as -> by congruence.
    assert (pl' = pl) as -> by congruence.
    repeat split; try done.
    + by apply String.eqb_eq.
    + by apply String.eqb_neq.
    + by apply String.eqb_neq.
Qed.

(** C6 as stated fails: a link on the root's host that names the port has
    none of the defects the claim lists, so the claim has it accepted; the
    code compares network locations and rejects it.  The same holds of a
    link that writes the host in another letter case. *)
Lemma C6_counterexample :
  is_valid_internal_link (Some "https://a.com/docs") "https://a.com:443/docs/x"
  = Ok false
  ∧ is_valid_internal_link_spec "https://a.com/docs" "https://a.com:443/docs/x"
    = true
  ∧ is_valid_internal_link (Some "https://a.com/docs") "https://A.com/docs/x"
    = Ok false
  ∧ is_valid_internal_link_spec "https://a.com/docs" "https://A.com/docs/x"
    = true.
Proof. by vm_compute. Qed.

(** ** Breadth-first order *)


Section BreadthFirst.

Context {W : Type}.
Variable arun : string -> W -> result CrawlResult * W.
Variable max_depth : Z.





End BreadthFirst.

(** ** The diamond *)








(** ** Idempotence of [normalize_url] *)

Import Stages.


(** ** Strings *)


Lemma append_cons (a : ascii) (s t : string) :
  String a s +:+ t = String a (s +:+ t).
Proof. reflexivity. Qed.


Lemma contains_app (c : ascii) (s t : string) :
  contains c (s +:+ t) = contains c s || contains c t.
Proof.
  induction s as [|a s IH]; [done|].
  rewrite append_cons. simpl. by rewrite IH, orb_assoc.
Qed.




Lemma take_drop (n : nat) (s : string) : take n s +:+ drop n s = s.
Proof.
  revert s. induction n as [|n IH]; intros [|a s]; simpl; try done.
  by rewrite append_cons, IH.
Qed.



Lemma contains_all (c : ascii) (s : string) :
  contains c s = negb (all (fun a => negb (ch_eqb a c)) s).
Proof.
  induction s as [|a s IH]; [done|]. simpl. rewrite IH.
  by destruct (ch_eqb a c).
Qed.



(** *** [span] *)




(** *** [partition] *)



(** ** The stages of [urlsplit] *)

(** *** The network location *)








(** *** Fragment and query *)






(** *** Characters *)

Ltac each_char a :=
  destruct a as [[] [] [] [] [] [] [] []]; vm_compute; try done; auto.

Lemma alpha_scheme_char (a : ascii) :
  is_ascii_alpha a = true -> scheme_char a = true.
Proof. each_char a. Qed.


Lemma scheme_char_not_colon (a : ascii) :
  scheme_char a = true -> ch_eqb a ":" = false.
Proof. each_char a. Qed.







(** *** The scheme *)










(** *** Unsafe characters and leading control characters *)










(** *** Prefixes *)




(** *** What [urlsplit] guarantees *)


(** *** Parsing a URL that was put together from components *)







(** *** Parameters *)


Lemma take_contains (c : ascii) (n : nat) (s : string) :
  contains c s = false -> contains c (take n s) = false.
Proof.
  intros H. rewrite <- (take_drop n s), contains_app in H.
  by apply orb_false_iff in H as [? _].
Qed.




(** *** What [normalize_parsed] does to the path *)



(** *** Putting a URL together *)










